(** * A shallow embedding of the scraper's crawl engine

    The development follows [scraper.py]: Python string primitives, the
    URL canonicaliser [normalize_url] (over a model of the standard
    library's [urlparse]), the document tree with the extractors that
    work on it ([is_js_rendered], [extract_text], [get_page_title],
    [extract_internal_links]) and the breadth-first [crawl] loop.

    Strings are lists of 8-bit characters; a Python [set] is a [gset];
    parsed documents live in a store, a list indexed by references, so
    that a function which changes the tree it is given shows it. *)

From Stdlib Require Import List Ascii String ZArith Lia Bool Arith Sorted.
From stdpp Require Import gmap.
Import ListNotations.

Abbreviation str := (list ascii).

Definition lit (x : string) : str := list_ascii_of_string x.
Coercion lit : string >-> list.

Open Scope string_scope.
Open Scope nat_scope.
Open Scope list_scope.

(** ** Python string primitives *)

Module PyStr.

(** The no-break space, which [str.strip] removes like a space. *)
Definition nbsp : ascii := ascii_of_nat 160.

(** Truthiness of a string: [if s:]. *)
Definition nonempty (s : str) : bool :=
  match s with [] => false | _ :: _ => true end.

(** [str.isspace] on the code points below 256. *)
Definition isspace (c : ascii) : bool :=
  let n := nat_of_ascii c in
  ((9 <=? n) && (n <=? 13)) || ((28 <=? n) && (n <=? 32))
  || (n =? 133) || (n =? 160).

Fixpoint lstrip_by (p : ascii -> bool) (s : str) : str :=
  match s with
  | [] => []
  | c :: t => if p c then lstrip_by p t else s
  end.

Definition rstrip_by (p : ascii -> bool) (s : str) : str :=
  rev (lstrip_by p (rev s)).

(** [s.strip()] *)
Definition strip (s : str) : str :=
  rstrip_by isspace (lstrip_by isspace s).

(** [s.rstrip(c)] for a one-character argument. *)
Definition rstrip_char (c : ascii) (s : str) : str :=
  rstrip_by (Ascii.eqb c) s.

(** [c in s] *)
Definition has_char (c : ascii) (s : str) : bool :=
  existsb (Ascii.eqb c) s.

(** [s.startswith(p)] *)
Fixpoint startswith (s p : str) {struct p} : bool :=
  match p with
  | [] => true
  | a :: p' =>
      match s with
      | [] => false
      | b :: s' => Ascii.eqb a b && startswith s' p'
      end
  end.

(** [s.endswith(p)] *)
Definition endswith (s p : str) : bool :=
  startswith (rev s) (rev p).

(** [s.split(c, 1)] when [c in s]: the text before and after the first
    occurrence of [c]; [None] when [c] does not occur. *)
Fixpoint split_once (c : ascii) (s : str) : option (str * str) :=
  match s with
  | [] => None
  | a :: t =>
      if Ascii.eqb a c then Some ([], t)
      else match split_once c t with
           | Some (l, r) => Some (a :: l, r)
           | None => None
           end
  end.

(** The longest prefix free of [p]-characters, and the rest. *)
Fixpoint span_until (p : ascii -> bool) (s : str) : str * str :=
  match s with
  | [] => ([], [])
  | c :: t =>
      if p c then ([], s)
      else let (a, b) := span_until p t in (c :: a, b)
  end.

Definition lower_char (c : ascii) : ascii :=
  let n := nat_of_ascii c in
  if ((65 <=? n) && (n <=? 90))
     || ((192 <=? n) && (n <=? 222) && negb (n =? 215))
  then ascii_of_nat (n + 32) else c.

(** [s.lower()] *)
Definition lower (s : str) : str := map lower_char s.

(** [s.count(sub)] for a non-empty [sub]: occurrences are counted left
    to right without overlap; [skip] is the number of characters still
    covered by the last match. *)
Fixpoint count_from (sub s : str) (skip : nat) : nat :=
  match s with
  | [] => 0
  | _ :: t =>
      match skip with
      | S k => count_from sub t k
      | O => if startswith s sub
             then S (count_from sub t (length sub - 1))
             else count_from sub t 0
      end
  end.

Definition count (s sub : str) : nat := count_from sub s 0.

(** [s.replace(old, new)] for a non-empty [old]. *)
Fixpoint replace_from (old new s : str) (skip : nat) : str :=
  match s with
  | [] => []
  | c :: t =>
      match skip with
      | S k => replace_from old new t k
      | O => if startswith s old
             then new ++ replace_from old new t (length old - 1)
             else c :: replace_from old new t 0
      end
  end.

Definition replace (s old new : str) : str := replace_from old new s 0.

(** [sep.join(parts)] *)
Fixpoint join (sep : str) (parts : list str) : str :=
  match parts with
  | [] => []
  | [x] => x
  | x :: rest => x ++ sep ++ join sep rest
  end.

(** [a == b] *)
Fixpoint eqb (a b : str) : bool :=
  match a, b with
  | [], [] => true
  | x :: a', y :: b' => Ascii.eqb x y && eqb a' b'
  | _, _ => false
  end.

End PyStr.

(** ** URLs: the standard library's [urlparse] and [normalize_url] *)

Module Url.
Import PyStr.

Record ParseResult := mkParse {
  scheme : str;
  netloc : str;
  path : str;
  params : str;
  query : str;
  fragment : str
}.

(** [_WHATWG_C0_CONTROL_OR_SPACE]: the code points 0 to 32. *)
Definition is_c0_or_space (c : ascii) : bool := nat_of_ascii c <=? 32.

(** [_UNSAFE_URL_BYTES_TO_REMOVE]: tab, carriage return, line feed. *)
Definition is_unsafe (c : ascii) : bool :=
  let n := nat_of_ascii c in (n =? 9) || (n =? 13) || (n =? 10).

Definition is_ascii_alpha (c : ascii) : bool :=
  let n := nat_of_ascii c in
  ((65 <=? n) && (n <=? 90)) || ((97 <=? n) && (n <=? 122)).

Definition is_digit (c : ascii) : bool :=
  let n := nat_of_ascii c in (48 <=? n) && (n <=? 57).

(** Membership in [scheme_chars]: letters, digits, [+], [-], [.]. *)
Definition is_scheme_char (c : ascii) : bool :=
  is_ascii_alpha c || is_digit c
  || Ascii.eqb c "+" || Ascii.eqb c "-" || Ascii.eqb c ".".

(** The scheme test of [urlsplit]: the text before the first [:] is a
    scheme when it is non-empty, starts with an ASCII letter and holds
    scheme characters only; it is lower-cased. *)
Definition split_scheme (url : str) : str * str :=
  match split_once ":" url with
  | Some (c0 :: pre, rest) =>
      if is_ascii_alpha c0 && forallb is_scheme_char (c0 :: pre)
      then (lower (c0 :: pre), rest)
      else ([], url)
  | _ => ([], url)
  end.

Definition is_delim (c : ascii) : bool :=
  Ascii.eqb c "/" || Ascii.eqb c "?" || Ascii.eqb c "#".

(** The first steps of [urlsplit]: leading control characters and
    spaces are stripped, then tabs and line breaks are removed. *)
Definition clean_url (url : str) : str :=
  List.filter (fun c => negb (is_unsafe c)) (lstrip_by is_c0_or_space url).

(** [if url[:2] == '//': netloc, url = _splitnetloc(url, 2)] *)
Definition split_netloc (url : str) : str * str :=
  if startswith url "//"
  then span_until is_delim (skipn 2 url)
  else ([], url).

(** [if '#' in url: url, fragment = url.split('#', 1)] *)
Definition split_fragment (url : str) : str * str :=
  match split_once "#" url with
  | Some (a, b) => (a, b)
  | None => (url, [])
  end.

(** [if '?' in url: url, query = url.split('?', 1)] *)
Definition split_query (url : str) : str * str :=
  match split_once "?" url with
  | Some (a, b) => (a, b)
  | None => (url, [])
  end.

(** [urlsplit(url)], after CPython 3.11's [urllib.parse].  The model is
    total: the [ValueError] that the library raises for a malformed
    bracketed (IPv6) host is not represented, and [_checknetloc] is the
    identity on the code points modelled here. *)
Definition urlsplit (url : str) : ParseResult :=
  let url := clean_url url in
  let '(sch, url) := split_scheme url in
  let '(net, url) := split_netloc url in
  let '(url, frag) := split_fragment url in
  let '(url, qry) := split_query url in
  mkParse sch net url [] qry frag.

Definition uses_params : list str :=
  [ lit ""; lit "ftp"; lit "hdl"; lit "prospero"; lit "http"; lit "imap";
    lit "https"; lit "shttp"; lit "rtsp"; lit "rtspu"; lit "sip";
    lit "sips"; lit "mms"; lit "sftp"; lit "tel" ].

(** [_splitparams]: the parameters follow the first [;] of the last
    path segment. *)
Definition splitparams (url : str) : str * str :=
  if has_char "/" url then
    let '(seg_rev, head_rev) := span_until (Ascii.eqb "/") (rev url) in
    match split_once ";" (rev seg_rev) with
    | Some (seg, par) => (rev head_rev ++ seg, par)
    | None => (url, [])
    end
  else
    match split_once ";" url with
    | Some (a, b) => (a, b)
    | None => (removelast url, url)
    end.

Definition urlparse (url : str) : ParseResult :=
  let r := urlsplit url in
  if existsb (PyStr.eqb (scheme r)) uses_params && has_char ";" (path r)
  then let '(p, par) := splitparams (path r) in
       mkParse (scheme r) (netloc r) p par (query r) (fragment r)
  else r.

(** [normalize_url] of the scraper. *)
Definition normalize_url (url : str) : str :=
  let parsed := urlparse url in
  let path := rstrip_char "/" (path parsed) in
  let normalized := scheme parsed ++ "://" ++ netloc parsed ++ path in
  if nonempty (query parsed)
  then normalized ++ "?" ++ query parsed
  else normalized.


(** The tail [?query] that [normalize_url] appends. *)
Definition query_suffix (q : str) : str :=
  if nonempty q then lit "?" ++ q else [].

End Url.

(** ** Parsed documents and the extractors *)

Module Dom.
Import PyStr.

#[local] Unset Elimination Schemes.

(** A node of a parsed tree: a text string, a comment, or an element
    with its tag name, attributes and children.  A parsed document (the
    [BeautifulSoup] object) is an element named [[document]]. *)
Inductive node :=
| Text (s : str)
| Comment (s : str)
| Elem (tag : str) (attrs : list (str * str)) (children : list node).
#[local] Set Elimination Schemes.

(** An element of a tree is identified by its position: the child
    indices leading to it from the root.  This is what [id(element)]
    stands for. *)
Abbreviation pos := (list nat).

Definition tag_of (n : node) : option str :=
  match n with Elem t _ _ => Some t | _ => None end.

Definition attrs_of (n : node) : list (str * str) :=
  match n with Elem _ a _ => a | _ => [] end.

Definition children_of (n : node) : list node :=
  match n with Elem _ _ cs => cs | _ => [] end.

Definition has_tag (t : str) (n : node) : bool :=
  match n with Elem t' _ _ => PyStr.eqb t' t | _ => false end.

Definition has_tag_in (ts : list str) (n : node) : bool :=
  existsb (fun t => has_tag t n) ts.

(** [tag.get(name)] *)
Fixpoint attr_get (name : str) (attrs : list (str * str)) : option str :=
  match attrs with
  | [] => None
  | (k, v) :: rest => if PyStr.eqb k name then Some v else attr_get name rest
  end.

Definition has_attr (name value : str) (n : node) : bool :=
  match n with
  | Elem _ a _ =>
      match attr_get name a with
      | Some v => PyStr.eqb v value
      | None => false
      end
  | _ => false
  end.

(** The whitespace-separated tokens of an attribute value; this is how
    the parser stores a [class] attribute. *)
Fixpoint tokens_from (cur : str) (s : str) : list str :=
  match s with
  | [] => if nonempty cur then [rev cur] else []
  | c :: t =>
      if isspace c
      then (if nonempty cur then [rev cur] else []) ++ tokens_from [] t
      else tokens_from (c :: cur) t
  end.

Definition tokens (s : str) : list str := tokens_from [] s.

(** [tag.get("class")]: the list of class tokens, when the attribute is
    there. *)
Definition get_class (n : node) : option (list str) :=
  match attr_get "class" (attrs_of n) with
  | Some v => Some (tokens v)
  | None => None
  end.

Definition has_class (c : str) (n : node) : bool :=
  match n with
  | Elem _ _ _ =>
      match get_class n with
      | Some ts => existsb (PyStr.eqb c) ts
      | None => false
      end
  | _ => false
  end.

Fixpoint imap_concat {A B} (f : nat -> A -> list B) (i : nat) (l : list A)
  : list B :=
  match l with
  | [] => []
  | x :: l' => f i x ++ imap_concat f (S i) l'
  end.

(** The node at [p] followed by everything below it, in document
    order, each with its position. *)
Fixpoint nodes_from (p : pos) (t : node) {struct t} : list (pos * node) :=
  (p, t) ::
  match t with
  | Elem _ _ cs => imap_concat (fun i c => nodes_from (p ++ [i]) c) 0 cs
  | _ => []
  end.

(** [tag.descendants] *)
Definition descendants (p : pos) (t : node) : list (pos * node) :=
  imap_concat (fun i c => nodes_from (p ++ [i]) c) 0 (children_of t).

(** [tag.find_all(...)] and [tag.find(...)] for a test on elements. *)
Definition find_all (f : node -> bool) (p : pos) (t : node)
  : list (pos * node) :=
  List.filter (fun e => f (snd e)) (descendants p t).

Definition find (f : node -> bool) (p : pos) (t : node)
  : option (pos * node) :=
  head (find_all f p t).

Fixpoint get_at (t : node) (p : pos) {struct p} : option node :=
  match p with
  | [] => Some t
  | i :: p' =>
      match children_of t !! i with
      | Some c => get_at c p'
      | None => None
      end
  end.

Fixpoint update_at (f : node -> node) (t : node) (p : pos) {struct p}
  : node :=
  match p with
  | [] => f t
  | i :: p' =>
      match t with
      | Elem tag a cs => Elem tag a (alter (fun c => update_at f c p') i cs)
      | _ => t
      end
  end.

(** [element.parent] *)
Definition parent_of (doc : node) (p : pos) : option node :=
  match p with
  | [] => None
  | _ :: _ => get_at doc (removelast p)
  end.

(** [for e in t.find_all(...): e.decompose()]: every matching node
    below [t] is removed with its subtree. *)
Fixpoint prune (f : node -> bool) (t : node) : node :=
  match t with
  | Elem tag a cs =>
      Elem tag a (flat_map (fun c => if f c then [] else [prune f c]) cs)
  | _ => t
  end.

Definition is_comment (n : node) : bool :=
  match n with Comment _ => true | _ => false end.

(** The text strings below a node, in document order; comments are not
    among them. *)
Fixpoint strings (t : node) : list str :=
  match t with
  | Text s => [s]
  | Comment _ => []
  | Elem _ _ cs => flat_map strings cs
  end.

(** [tag.get_text()] *)
Definition get_text (t : node) : str := concat (strings t).

Definition stripped_strings (t : node) : list str :=
  List.filter nonempty (map strip (strings t)).

(** [tag.get_text(strip=True)] *)
Definition get_text_strip (t : node) : str := concat (stripped_strings t).

(** [tag.get_text(separator=sep, strip=True)] *)
Definition get_text_sep (sep : str) (t : node) : str :=
  join sep (stripped_strings t).

(** [tag.string]: the only child when it is a string, or the [string]
    of the only child. *)
Fixpoint node_string (t : node) : option str :=
  match t with
  | Elem _ _ [c] =>
      match c with
      | Text s => Some s
      | Comment s => Some s
      | Elem _ _ _ => node_string c
      end
  | _ => None
  end.

(** *** The store of parsed documents

    A [BeautifulSoup] object is a mutable tree; variables hold
    references to it.  The store maps a reference to the current tree. *)

Abbreviation ref := nat.
Abbreviation store := (list node).

Definition M (A : Type) : Type := store -> option (A * store).

Definition ret {A} (x : A) : M A := fun st => Some (x, st).

Definition bind {A B} (m : M A) (k : A -> M B) : M B :=
  fun st => match m st with
            | Some (x, st') => k x st'
            | None => None
            end.

Notation "x <- m ;; k" := (bind m (fun x => k))
  (at level 100, m at next level, right associativity).
Notation "m ;;; k" := (bind m (fun _ => k))
  (at level 100, right associativity).

Definition read (r : ref) : M node :=
  fun st => match st !! r with Some t => Some (t, st) | None => None end.

Definition modify (r : ref) (f : node -> node) : M unit :=
  fun st => match st !! r with
            | Some t => Some (tt, <[r := f t]> st)
            | None => None
            end.

(** A new document; its reference is fresh. *)
Definition alloc (t : node) : M ref :=
  fun st => Some (length st, st ++ [t]).

(** *** [is_js_rendered] *)

Definition spa_ids : list str :=
  [lit "app"; lit "root"; lit "__next"; lit "__nuxt"].

Definition is_js_rendered (html : str) (soup : ref) : M bool :=
  doc <- read soup ;;
  match find (has_tag "body") [] doc with
  | None => ret false
  | Some (body, _) =>
      modify soup (fun d =>
        update_at (prune (has_tag_in [lit "script"; lit "style"])) d body) ;;;
      doc <- read soup ;;
      let text :=
        match get_at doc body with
        | Some b => get_text_strip b
        | None => []
        end in
      let text_length := length text in
      let script_count := count (lower html) "<script" in
      let has_spa_container :=
        existsb (fun i => bool_decide (is_Some (find (has_attr "id" i) [] doc)))
                spa_ids in
      if (text_length <? 500) && (5 <? script_count) then ret true
      else if (text_length <? 200) && has_spa_container then ret true
      else ret false
  end.

(** What the loop [for script in body.find_all(...): script.decompose()]
    leaves of a document. *)
Definition strip_body (doc : node) : node :=
  match find (has_tag "body") [] doc with
  | Some (body, _) =>
      update_at (prune (has_tag_in [lit "script"; lit "style"])) doc body
  | None => doc
  end.

(** *** [extract_text] *)

Definition unwanted : list str :=
  [lit "script"; lit "style"; lit "nav"; lit "footer"; lit "header";
   lit "aside"; lit "noscript"; lit "iframe"; lit "svg"].

Definition content_tags : list str :=
  [lit "h1"; lit "h2"; lit "h3"; lit "h4"; lit "h5"; lit "h6"; lit "p";
   lit "li"; lit "td"; lit "th"; lit "blockquote"; lit "pre"; lit "code"].

Definition newline : ascii := ascii_of_nat 10.
Definition nl : str := [newline].

(** The first of [main], [article], [id="content"], [class="content"],
    [body]; the whole document when there is none. *)
Definition main_content (doc : node) : pos * node :=
  match find (has_tag "main") [] doc with
  | Some e => e
  | None =>
  match find (has_tag "article") [] doc with
  | Some e => e
  | None =>
  match find (has_attr "id" "content") [] doc with
  | Some e => e
  | None =>
  match find (has_class "content") [] doc with
  | Some e => e
  | None =>
  match find (has_tag "body") [] doc with
  | Some e => e
  | None => ([], doc)
  end end end end end.

(** The language of a code block: the first class token of the first
    [code] element that starts with [language-]. *)
Fixpoint first_language (classes : list str) : str :=
  match classes with
  | [] => []
  | cls :: rest =>
      if startswith cls "language-" then replace cls "language-" ""
      else first_language rest
  end.

Definition code_language (p : pos) (element : node) : str :=
  match find (has_tag "code") p element with
  | Some (_, code_elem) =>
      match get_class code_elem with
      | Some (c :: cs) => first_language (c :: cs)
      | _ => []
      end
  | None => []
  end.

Definition fence (lang body : str) : str :=
  nl ++ "```" ++ lang ++ nl ++ body ++ nl ++ "```" ++ nl.

Definition heading_level (name : str) : option nat :=
  match name with
  | [h; d] => if Ascii.eqb h "h" then Some (nat_of_ascii d - 48) else None
  | _ => None
  end.

(** One turn of the loop over the content elements: [seen] is the set
    of elements already dealt with, [lines] the output so far. *)
Definition visit_element (doc : node) (acc : gset pos * list str)
    (e : pos * node) : gset pos * list str :=
  let '(seen, lines) := acc in
  let '(p, element) := e in
  if bool_decide (p ∈ seen) then acc
  else if has_tag "pre" element then
    let seen := {[p]} ∪ seen in
    let seen :=
      fold_left (fun s c => {[fst c]} ∪ s)
                (find_all (has_tag "code") p element) seen in
    let code_text := get_text element in
    if nonempty (strip code_text)
    then (seen, lines ++ [fence (code_language p element) (strip code_text)])
    else (seen, lines)
  else if has_tag "code" element then
    match parent_of doc p with
    | Some par =>
        if has_tag "pre" par then acc
        else let text := get_text_strip element in
             if nonempty text then (seen, lines ++ [lit "`" ++ text ++ "`"])
             else acc
    | None =>
        let text := get_text_strip element in
        if nonempty text then (seen, lines ++ [lit "`" ++ text ++ "`"])
        else acc
    end
  else
    let text := get_text_strip element in
    if negb (nonempty text) then acc
    else
      let name := default [] (tag_of element) in
      match heading_level name with
      | Some level =>
          (seen, lines ++ [nl ++ repeat "#"%char level ++ " " ++ text ++ nl])
      | None =>
          if PyStr.eqb name "li" then (seen, lines ++ [lit "- " ++ text])
          else if PyStr.eqb name "blockquote"
          then (seen, lines ++ [lit "> " ++ text])
          else (seen, lines ++ [text])
      end.

(** [re.sub(r"\n{3,}", "\n\n", text)]: a run of line feeds is cut to
    two. *)
Fixpoint cap_newlines (run : nat) (s : str) : str :=
  match s with
  | [] => []
  | c :: t =>
      if Ascii.eqb c newline
      then (if run <? 2 then c :: cap_newlines (S run) t
            else cap_newlines (S run) t)
      else c :: cap_newlines 0 t
  end.

(** The lines that [extract_text] collects from a cleaned document. *)
Definition content_lines (doc : node) : list str :=
  let '(p, root) := main_content doc in
  snd (fold_left (visit_element doc)
                 (find_all (has_tag_in content_tags) p root) (∅, [])).

(** The text made from a cleaned document. *)
Definition render (doc : node) : str :=
  match content_lines doc with
  | [] => cap_newlines 0 (get_text_sep nl (snd (main_content doc)))
  | lines => join nl lines
  end.



Section WithParser.

(** [BeautifulSoup(str(soup), "lxml")]: the tree obtained by writing
    a document out and parsing it again belongs to the parser. *)
Variable reparse : node -> node.

Definition extract_text (soup : ref) : M str :=
  doc <- read soup ;;
  soup <- alloc (reparse doc) ;;
  modify soup (prune (has_tag_in unwanted)) ;;;
  modify soup (prune is_comment) ;;;
  doc <- read soup ;;
  ret (render doc).

End WithParser.

(** *** [get_page_title] *)

Definition default_title : str := "Unbekannter Titel".

Definition get_page_title (doc : node) : str :=
  let from_h1_or_meta :=
    match find (has_tag "h1") [] doc with
    | Some (_, h1) => get_text_strip h1
    | None =>
        match find (fun n => has_tag "meta" n && has_attr "property" "og:title" n)
                   [] doc with
        | Some (_, og_title) =>
            match attr_get "content" (attrs_of og_title) with
            | Some c => if nonempty c then c else default_title
            | None => default_title
            end
        | None => default_title
        end
    end in
  match find (has_tag "title") [] doc with
  | Some (_, title_tag) =>
      match node_string title_tag with
      | Some s => if nonempty s then strip s else from_h1_or_meta
      | None => from_h1_or_meta
      end
  | None => from_h1_or_meta
  end.

End Dom.

(** ** Links, pages and the crawl loop *)

Module Crawl.
Import PyStr Url Dom.

(** A link record [{"url": ..., "text": ...}]. *)
Record link := mkLink { link_url : str; link_text : str }.

(** A page record [{"url": ..., "title": ..., "content": ...}]. *)
Record page := mkPage {
  page_url : str;
  page_title : str;
  page_content : str
}.

(** A frontier entry [(url, depth, referer)]. *)
Record entry := mkEntry {
  entry_url : str;
  entry_depth : Z;
  entry_referer : option str
}.

(** What [scrape_page] returns: [(title, content, links, success)]. *)
Record scraped := mkScraped {
  s_title : str;
  s_content : str;
  s_links : list link;
  s_success : bool
}.

Definition scrape_failed : scraped := mkScraped [] [] [] false.

(** [if path_prefix and not path.startswith(path_prefix): continue]
    lets a path through when no prefix is set or the path starts with
    it. *)
Definition prefix_allows (path_prefix : option str) (path : str) : bool :=
  match path_prefix with
  | Some pre => if nonempty pre then startswith path pre else true
  | None => true
  end.

Definition skip_extensions : list str :=
  [lit ".pdf"; lit ".jpg"; lit ".jpeg"; lit ".png"; lit ".gif"; lit ".svg";
   lit ".webp"; lit ".mp3"; lit ".mp4"; lit ".avi"; lit ".mov"; lit ".zip";
   lit ".rar"; lit ".exe"; lit ".doc"; lit ".docx"; lit ".xls"; lit ".xlsx";
   lit ".ppt"; lit ".pptx"].

Definition is_anchor (n : node) : bool :=
  has_tag "a" n && bool_decide (is_Some (attr_get "href" (attrs_of n))).

(** The capabilities the scraper consumes.  [http_get url referer] is
    the lightweight fetch, giving the body and the status code;
    [browser_get url expand_tabs] is the rendering fetch; both give
    [None] when they raise.  [parse] is [BeautifulSoup(html, "lxml")],
    [reparse] is [BeautifulSoup(str(soup), "lxml")], and [urljoin] is
    the standard library's. *)
Record world := mkWorld {
  http_get : str -> option str -> option (str * Z);
  browser_get : str -> bool -> option str;
  parse : str -> node;
  reparse : node -> node;
  urljoin : str -> str -> str
}.

(** The arguments of [crawl]. *)
Record config := mkConfig {
  start_url : str;
  max_pages : Z;
  max_depth : option Z;
  path_prefix : option str;
  force_browser : bool;
  expand_tabs : bool;
  verbose : bool
}.

(** The variables of the loop of [crawl]; [dequeued] is not in the
    source: it records the entries popped so far, in order. *)
Record state := mkState {
  visited : gset str;
  to_visit : list entry;
  pages : list page;
  all_links : list link;
  dequeued : list entry
}.

Section Scraping.

Variable W : world.

(** One turn of the loop of [extract_internal_links]. *)
Definition link_step (base_url base_domain : str) (prefix : option str)
    (acc : gset str * list link) (a_tag : node) : gset str * list link :=
  let '(seen_urls, links) := acc in
  match attr_get "href" (attrs_of a_tag) with
  | None => acc
  | Some href =>
      let full_url := urljoin W base_url href in
      let parsed_url := urlparse full_url in
      if negb (PyStr.eqb (scheme parsed_url) "http"
               || PyStr.eqb (scheme parsed_url) "https") then acc
      else if negb (PyStr.eqb (netloc parsed_url) base_domain) then acc
      else if negb (prefix_allows prefix (path parsed_url)) then acc
      else
        let clean_url :=
          scheme parsed_url ++ "://" ++ netloc parsed_url
          ++ path parsed_url ++ query_suffix (query parsed_url) in
        let path_lower := lower (path parsed_url) in
        if existsb (endswith path_lower) skip_extensions then acc
        else if bool_decide (clean_url ∈ seen_urls) then acc
        else
          let text := get_text_strip a_tag in
          let link_text :=
            if nonempty text then text else path parsed_url in
          ({[clean_url]} ∪ seen_urls, links ++ [mkLink clean_url link_text])
  end.

Definition extract_internal_links (doc : node) (base_url : str)
    (prefix : option str) : list link :=
  let base_domain := netloc (urlparse base_url) in
  snd (fold_left (link_step base_url base_domain prefix)
                 (map snd (find_all is_anchor [] doc)) (∅, [])).

(** [fetch_with_browser] followed by the parse; [None] when the fetch
    raises. *)
Definition render_page (url : str) (tabs : bool) : M (option ref) :=
  match browser_get W url tabs with
  | Some html => soup <- alloc (parse W html) ;; ret (Some soup)
  | None => ret None
  end.

(** The fetch strategy of [scrape_page]: the parsed page, or [None]
    when the fetch raises.  A rendering fetch that raises inside the
    inner [try] is tried once more by its handler, with the same
    outcome here. *)
Definition fetch_soup (url : str) (referer : option str)
    (force expand : bool) : M (option ref) :=
  if expand then render_page url true
  else if negb force then
    match http_get W url referer with
    | Some (html, status) =>
        if (status =? 200)%Z then
          soup <- alloc (parse W html) ;;
          probe <- alloc (parse W html) ;;
          js <- is_js_rendered html probe ;;
          if js then render_page url false else ret (Some soup)
        else render_page url false
    | None => render_page url false
    end
  else render_page url false.

(** [scrape_page(url, referer, path_prefix, force_browser,
    expand_tabs, verbose)]; what [verbose] prints is not modelled. *)
Definition scrape_page (url : str) (referer : option str)
    (prefix : option str) (force expand verb : bool) : M scraped :=
  fetched <- fetch_soup url referer force expand ;;
  match fetched with
  | None => ret scrape_failed
  | Some soup =>
      doc <- read soup ;;
      let title := get_page_title doc in
      content <- extract_text (reparse W) soup ;;
      doc <- read soup ;;
      let links := extract_internal_links doc url prefix in
      ret (mkScraped title content links true)
  end.

(** A call of [scrape_page] works on documents of its own. *)
Definition scrape (url : str) (referer : option str)
    (prefix : option str) (force expand verb : bool) : scraped :=
  match scrape_page url referer prefix force expand verb [] with
  | Some (r, _) => r
  | None => scrape_failed
  end.

End Scraping.

(** *** [crawl] *)

Section Crawling.

Variable W : world.
Variable cfg : config.

Definition base_domain : str := netloc (urlparse (start_url cfg)).

Definition domain_ok (url : str) : bool :=
  PyStr.eqb (netloc (urlparse url)) base_domain.

Definition prefix_ok (url : str) : bool :=
  prefix_allows (path_prefix cfg) (path (urlparse url)).

(** [max_depth is None or depth < max_depth] *)
Definition depth_allows (depth : Z) : bool :=
  match max_depth cfg with
  | None => true
  | Some m => (depth <? m)%Z
  end.

(** [normalized not in [u for u, d, r in to_visit]] is the negation
    of this. *)
Definition queued (url : str) (queue : list entry) : bool :=
  existsb (PyStr.eqb url) (map entry_url queue).

(** The loop [for link in links] of [crawl]. *)
Fixpoint enqueue_links (seen : gset str) (url : str) (depth : Z)
    (links : list link) (queue : list entry) (found : list link)
  : list entry * list link :=
  match links with
  | [] => (queue, found)
  | link :: rest =>
      let normalized := normalize_url (link_url link) in
      if negb (bool_decide (normalized ∈ seen))
         && negb (queued normalized queue)
      then enqueue_links seen url depth rest
             (queue ++ [mkEntry normalized (depth + 1) (Some url)])
             (found ++ [link])
      else enqueue_links seen url depth rest queue found
  end.

(** The result of scraping [url] in this crawl. *)
Definition result_of (url : str) (referer : option str) : scraped :=
  scrape W url referer (path_prefix cfg) (force_browser cfg)
         (expand_tabs cfg) (verbose cfg).

(** The body of the [while] loop, for a non-empty queue. *)
Definition iteration (st : state) : state :=
  match to_visit st with
  | [] => st
  | e :: rest =>
      let url := entry_url e in
      let depth := entry_depth e in
      let referer := entry_referer e in
      let popped :=
        mkState (visited st) rest (pages st) (all_links st)
                (dequeued st ++ [e]) in
      if bool_decide (url ∈ visited st) then popped
      else if negb (domain_ok url) then popped
      else if negb (prefix_ok url) then popped
      else
        let seen := {[url]} ∪ visited st in
        let r := result_of url referer in
        if s_success r && nonempty (strip (s_content r)) then
          let pages' :=
            pages st ++ [mkPage url (s_title r) (s_content r)] in
          if depth_allows depth then
            let '(queue, found) :=
              enqueue_links seen url depth (s_links r) rest
                            (all_links st) in
            mkState seen queue pages' found (dequeued st ++ [e])
          else
            mkState seen rest pages' (all_links st) (dequeued st ++ [e])
        else
          mkState seen rest (pages st) (all_links st) (dequeued st ++ [e])
  end.

(** [while to_visit and len(pages) < max_pages] *)
Definition continues (st : state) : bool :=
  match to_visit st with
  | [] => false
  | _ :: _ => (Z.of_nat (length (pages st)) <? max_pages cfg)%Z
  end.

Fixpoint crawl_loop (fuel : nat) (st : state) : option state :=
  if continues st then
    match fuel with
    | O => None
    | S fuel' => crawl_loop fuel' (iteration st)
    end
  else Some st.

Definition seed : str := normalize_url (start_url cfg).

Definition initial : state :=
  mkState ∅ [mkEntry seed 0 None] [] [] [].

(** The state in which the loop of [crawl] ends, when [fuel] turns
    are enough. *)
Definition crawl_run (fuel : nat) : option state :=
  crawl_loop fuel initial.

(** [crawl(start_url, max_pages, max_depth, path_prefix, ...)] *)
Definition crawl (fuel : nat) : option (list page * list link) :=
  match crawl_run fuel with
  | Some st => Some (pages st, all_links st)
  | None => None
  end.

(** *** Notions used to state the properties of [crawl] *)

(** The crawl accepts [url]: it passes the host and prefix tests. *)
Definition accepted (url : str) : bool := domain_ok url && prefix_ok url.




(** [success and content.strip()] *)
Definition gives_page (r : scraped) : bool :=
  s_success r && nonempty (strip (s_content r)).

(** The page record made for a dequeued entry. *)
Definition page_of (e : entry) : page :=
  let r := result_of (entry_url e) (entry_referer e) in
  mkPage (entry_url e) (s_title r) (s_content r).

(** The canonical URL of a link, and the entry made for it on a page
    at [depth]. *)
Definition canon (l : link) : str := normalize_url (link_url l).

Definition child_entry (url : str) (depth : Z) (l : link) : entry :=
  mkEntry (canon l) (depth + 1) (Some url).

(** The URLs that were dequeued and passed the host and prefix
    tests, in order. *)
Definition scraped_urls (st : state) : list str :=
  map entry_url
      (List.filter (fun e => accepted (entry_url e)) (dequeued st)).

(** Invariants of the loop on the frontier and the results. *)
Record frontier_inv (st : state) : Prop := {
  fi_visited : forall u, In u (scraped_urls st) -> u ∈ visited st;
  fi_queue_nodup : NoDup (map entry_url (to_visit st));
  fi_queue_fresh :
    forall e, In e (to_visit st) -> entry_url e ∉ visited st;
  fi_scraped_nodup : NoDup (scraped_urls st);
  fi_links :
    map entry_url (dequeued st ++ to_visit st)
    = seed :: map canon (all_links st);
  fi_content :
    forall p, In p (pages st) ->
              nonempty (strip (page_content p)) = true;
  fi_budget :
    (Z.of_nat (length (pages st)) <= Z.max 0 (max_pages cfg))%Z
}.



(** With [max_depth = 1]: what is queued or kept is the seed or the
    target of a link of the seed page. *)
Definition near_seed (url : str) : Prop :=
  url = seed
  \/ exists l, In l (s_links (result_of seed None)) /\ url = canon l.

Record depth1_inv (st : state) : Prop := {
  di_queue :
    forall e, In e (to_visit st) ->
      (entry_depth e = 0%Z /\ entry_url e = seed
       /\ entry_referer e = None)
      \/ (entry_depth e = 1%Z
          /\ exists l, In l (s_links (result_of seed None))
                       /\ entry_url e = canon l);
  di_pages : forall p, In p (pages st) -> near_seed (page_url p)
}.

End Crawling.

End Crawl.

(** ** Sample documents *)

Module Samples.
Import Dom Crawl.

Definition document (cs : list node) : node := Elem "[document]" [] cs.

(** [<html><head><title>&nbsp;</title></head><body><h1>Welcome</h1></body></html>] *)
Definition blank_title_page : node :=
  document
    [Elem "html" []
       [Elem "head" [] [Elem "title" [] [Text [PyStr.nbsp]]];
        Elem "body" [] [Elem "h1" [] [Text "Welcome"]]]].

(** [<html><body><h1></h1><p>Text</p></body></html>] *)
Definition empty_heading_page : node :=
  document
    [Elem "html" []
       [Elem "body" [] [Elem "h1" [] []; Elem "p" [] [Text "Text"]]]].

(** [<html><body><script>go()</script><p>Hello</p></body></html>] *)
Definition scripted_page : node :=
  document
    [Elem "html" []
       [Elem "body" []
          [Elem "script" [] [Text "go()"]; Elem "p" [] [Text "Hello"]]]].

(** The same page without its script. *)
Definition scripted_page_stripped : node :=
  document
    [Elem "html" [] [Elem "body" [] [Elem "p" [] [Text "Hello"]]]].




(** [<a href="href">text</a>] *)
Definition anchor (href text : str) : node :=
  Elem "a" [(lit "href", href)] [Text text].

(** A page with a title, a paragraph and some links. *)
Definition site_page (title : str) (anchors : list node) : node :=
  document
    [Elem "html" []
       [Elem "head" [] [Elem "title" [] [Text title]];
        Elem "body" [] (Elem "p" [] [Text "Some text."] :: anchors)]].

(** A site is given by the page found at each address.  The body that
    a fetch returns stands for the page by its address; links are
    absolute, and [urljoin] returns an absolute link as it is. *)
Definition site_world (site : str -> option node) : world :=
  mkWorld
    (fun url _ => match site url with
                  | Some _ => Some (url, 200%Z)
                  | None => Some ([], 404%Z)
                  end)
    (fun url _ => match site url with
                  | Some _ => Some url
                  | None => None
                  end)
    (fun html => match site html with
                 | Some doc => doc
                 | None => document []
                 end)
    (fun doc => doc)
    (fun _ href => href).

(** Two pages under [/docs/] that link to the section index
    [/docs/]. *)
Definition docs_site (url : str) : option node :=
  if PyStr.eqb url "https://a.com/docs/x" then
    Some (site_page "X" [anchor "https://a.com/docs/" "Docs";
                         anchor "https://a.com/docs/y" "Y"])
  else if PyStr.eqb url "https://a.com/docs/y" then
    Some (site_page "Y" [anchor "https://a.com/docs/" "Docs"])
  else if PyStr.eqb url "https://a.com/docs" then
    Some (site_page "Docs" [])
  else None.

Definition docs_config : config :=
  mkConfig "https://a.com/docs/x" 10 None (Some (lit "/docs/"))
           false false false.

(** A home page and a page [/b] that link to each other. *)
Definition home_site (url : str) : option node :=
  if PyStr.eqb url "https://a.com" then
    Some (site_page "Home" [anchor "https://a.com/" "Home";
                            anchor "https://a.com/b" "B"])
  else if PyStr.eqb url "https://a.com/b" then
    Some (site_page "B" [anchor "https://a.com/" "Home"])
  else None.

Definition home_config (max_pages : Z) (max_depth : option Z) : config :=
  mkConfig "https://a.com/" max_pages max_depth None false false false.

End Samples.

Import PyStr Url Dom Crawl.

(** * Properties *)

(** ** Facts about the string primitives *)

Section PyStrFacts.

Lemma split_once_spec c s a b :
  split_once c s = Some (a, b) -> s = a ++ c :: b /\ ~ In c a.
Proof.
  revert a b. induction s as [|x s IH]; intros a b H; simpl in H.
  - discriminate.
  - destruct (Ascii.eqb_spec x c) as [->|Hne].
    + inversion H; subst. split; [reflexivity | intros []].
    + destruct (split_once c s) as [[l r]|] eqn:E; [|discriminate].
      inversion H; subst. destruct (IH _ _ eq_refl) as [-> Hn].
      split; [reflexivity|]. intros [Hx|Hx]; [congruence | tauto].
Qed.






Lemma split_once_Some_In c s a b : split_once c s = Some (a, b) -> In c s.
Proof.
  intros H. apply split_once_spec in H as [-> _].
  apply in_or_app. right. now left.
Qed.




Lemma lstrip_by_head p s c t : lstrip_by p s = c :: t -> p c = false.
Proof.
  induction s as [|x s IH]; simpl; [discriminate|].
  destruct (p x) eqn:Px; [exact IH|]. intros H. now inversion H; subst.
Qed.

Lemma lstrip_by_stable p s :
  (forall c t, s = c :: t -> p c = false) -> lstrip_by p s = s.
Proof.
  destruct s as [|c t]; intros H; simpl; [reflexivity|].
  now rewrite (H c t eq_refl).
Qed.

Lemma lstrip_by_idem p s : lstrip_by p (lstrip_by p s) = lstrip_by p s.
Proof.
  apply lstrip_by_stable. intros c t H. eapply lstrip_by_head; eauto.
Qed.

Lemma rstrip_by_idem p s : rstrip_by p (rstrip_by p s) = rstrip_by p s.
Proof.
  unfold rstrip_by. now rewrite rev_involutive, lstrip_by_idem.
Qed.









Lemma eqb_eq a b : PyStr.eqb a b = true <-> a = b.
Proof.
  revert b. induction a as [|x a IH]; intros [|y b]; simpl;
    try (split; [discriminate | congruence]); [tauto|].
  rewrite andb_true_iff, Ascii.eqb_eq, IH. split.
  - intros [-> ->]. reflexivity.
  - intros E. inversion E. auto.
Qed.

Lemma eqb_refl a : PyStr.eqb a a = true.
Proof. now apply eqb_eq. Qed.

Lemma eqb_neq a b : PyStr.eqb a b = false <-> a <> b.
Proof.
  rewrite <- eqb_eq. destruct (PyStr.eqb a b); split; congruence.
Qed.


Lemma filter_stable_list {A} (f : A -> bool) (l : list A) :
  Forall (fun x => f x = true) l -> List.filter f l = l.
Proof.
  induction 1 as [|x l Hx _ IH]; simpl; [reflexivity|]. now rewrite Hx, IH.
Qed.


End PyStrFacts.

(** ** Facts about [urlsplit] and [urlparse] *)

Section UrlFacts.














End UrlFacts.

(** ** Appending a fragment or a trailing slash *)

Section UrlSuffix.



















End UrlSuffix.

(** ** Canonical URLs (claim C4) *)




(** ** Facts about document trees *)

Section DomFacts.

Lemma node_ind' (P : node -> Prop) :
  (forall s, P (Text s)) -> (forall s, P (Comment s)) ->
  (forall tag a cs, Forall P cs -> P (Elem tag a cs)) ->
  forall t, P t.
Proof.
  intros HT HC HE. fix IH 1. intros [s|s|tag a cs]; [apply HT|apply HC|].
  apply HE. induction cs as [|c cs IHcs]; constructor;
    [apply IH | exact IHcs].
Qed.

Lemma head_filter_app {A} (g : A -> bool) (l1 l2 : list A) :
  head (List.filter g (l1 ++ l2)) =
  match head (List.filter g l1) with
  | Some x => Some x
  | None => head (List.filter g l2)
  end.
Proof. rewrite List.filter_app. now destruct (List.filter g l1). Qed.

Lemma has_tag_in_label ts tag a cs cs' :
  has_tag_in ts (Elem tag a cs) = has_tag_in ts (Elem tag a cs').
Proof. reflexivity. Qed.

Lemma has_tag_prune t f n : has_tag t (prune f n) = has_tag t n.
Proof. now destruct n. Qed.

Lemma has_tag_in_prune ts f n : has_tag_in ts (prune f n) = has_tag_in ts n.
Proof. now destruct n. Qed.

Lemma prune_idem f :
  (forall n, f (prune f n) = f n) ->
  forall t, prune f (prune f t) = prune f t.
Proof.
  intros Hf. induction t as [s|s|tag a cs IH] using node_ind';
    try reflexivity.
  simpl. f_equal. induction IH as [|c cs Hc _ IHcs]; [reflexivity|].
  simpl. destruct (f c) eqn:Fc; [exact IHcs|].
  simpl. rewrite Hf, Fc, Hc. simpl. now f_equal.
Qed.

Lemma update_at_twice g h p :
  forall t, update_at g (update_at h t p) p = update_at (fun x => g (h x)) t p.
Proof.
  induction p as [|i p IH]; intros t; [reflexivity|].
  destruct t as [s|s|tag a cs]; try reflexivity.
  simpl. f_equal. rewrite list_alter_alter_eq.
  apply list_alter_ext; [|reflexivity]. intros x _. apply IH.
Qed.

Lemma update_at_ext g h p :
  (forall x, g x = h x) -> forall t, update_at g t p = update_at h t p.
Proof.
  intros E. induction p as [|i p IH]; intros t; [apply E|].
  destruct t as [s|s|tag a cs]; try reflexivity.
  simpl. f_equal. apply list_alter_ext; [|reflexivity]. intros x _. apply IH.
Qed.

Lemma nodes_from_cons p t : nodes_from p t = (p, t) :: descendants p t.
Proof. now destruct t. Qed.

Section FirstMatch.

Variables (f : node -> bool) (g : node -> node).
Hypothesis Hfg : forall x, f (g x) = f x.
Hypothesis Hlab : forall tag a cs cs',
    f (Elem tag a cs) = f (Elem tag a cs').

Let sel := fun e : pos * node => f (snd e).

Lemma first_in_forest p cs :
  Forall (fun t => forall p q n,
              head (List.filter sel (nodes_from p t)) = Some (q, n) ->
              exists r, q = p ++ r /\ get_at t r = Some n
                /\ head (List.filter sel (nodes_from p (update_at g t r)))
                   = Some (q, g n)) cs ->
  forall i q n,
    head (List.filter sel
            (imap_concat (fun i c => nodes_from (p ++ [i]) c) i cs))
    = Some (q, n) ->
    exists k r c, cs !! k = Some c /\ q = p ++ (i + k) :: r
      /\ get_at c r = Some n
      /\ head (List.filter sel
                 (imap_concat (fun i c => nodes_from (p ++ [i]) c) i
                    (alter (fun c => update_at g c r) k cs)))
         = Some (q, g n).
Proof.
  induction 1 as [|c cs Hc Hcs IH]; intros i q n H; simpl in H.
  - discriminate.
  - rewrite head_filter_app in H.
    destruct (head (List.filter sel (nodes_from (p ++ [i]) c)))
      as [[q0 n0]|] eqn:E.
    + inversion H; subst. destruct (Hc _ _ _ E) as (r & -> & Hget & Hupd).
      exists 0, r, c. split; [reflexivity|]. split.
      { rewrite Nat.add_0_r, <- app_assoc. reflexivity. }
      split; [exact Hget|]. simpl. now rewrite head_filter_app, Hupd.
    + destruct (IH (S i) q n H) as (k & r & c' & Hk & -> & Hget & Hupd).
      exists (S k), r, c'. simpl. repeat split; auto.
      { do 2 f_equal. lia. }
      now rewrite head_filter_app, E.
Qed.

Lemma first_in_tree t :
  forall p q n,
    head (List.filter sel (nodes_from p t)) = Some (q, n) ->
    exists r, q = p ++ r /\ get_at t r = Some n
      /\ head (List.filter sel (nodes_from p (update_at g t r)))
         = Some (q, g n).
Proof.
  induction t as [s|s|tag a cs IH] using node_ind'; intros p q n H;
    rewrite nodes_from_cons in H; simpl in H; unfold sel in H at 1;
    simpl in H;
    match type of H with context [f ?t] => destruct (f t) eqn:Ft end;
    try (simpl in H; inversion H; subst; exists []; rewrite app_nil_r;
         repeat split; simpl; rewrite nodes_from_cons; simpl;
         unfold sel at 1; simpl; now rewrite Hfg, Ft);
    try discriminate H.
  destruct (first_in_forest p cs IH 0 q n H)
    as (k & r & c & Hk & -> & Hget & Hupd).
  exists (k :: r). repeat split.
  - simpl. now rewrite Hk.
  - simpl. unfold sel at 1. simpl.
    rewrite (Hlab tag a _ cs), Ft. exact Hupd.
Qed.

Lemma find_update p t q n :
  find f p t = Some (q, n) ->
  exists r, q = p ++ r /\ get_at t r = Some n
    /\ find f p (update_at g t r) = Some (q, g n).
Proof.
  unfold find, find_all, descendants. intros H.
  destruct t as [s|s|tag a cs]; try discriminate.
  simpl in H.
  assert (IH : Forall (fun t => forall p q n,
              head (List.filter sel (nodes_from p t)) = Some (q, n) ->
              exists r, q = p ++ r /\ get_at t r = Some n
                /\ head (List.filter sel (nodes_from p (update_at g t r)))
                   = Some (q, g n)) cs).
  { apply List.Forall_forall. intros c _. apply first_in_tree. }
  destruct (first_in_forest p cs IH 0 q n H)
    as (k & r & c & Hk & -> & Hget & Hupd).
  exists (k :: r). repeat split.
  - simpl. now rewrite Hk.
  - simpl. exact Hupd.
Qed.

End FirstMatch.

End DomFacts.

(** ** The extractors and the document they are given (claims C8, C10) *)

Section StoreFacts.

Lemma verdict_run (c1 c2 : bool) (st : store) :
  (if c1 then ret true else if c2 then ret true else ret false) st
  = Some (c1 || c2, st).
Proof. now destruct c1, c2. Qed.

Lemma lookup_alloc (st : store) (t : node) : (st ++ [t]) !! length st = Some t.
Proof. now apply list_lookup_middle. Qed.

Lemma insert_alloc (st : store) (t t' : node) :
  <[length st := t']> (st ++ [t]) = st ++ [t'].
Proof.
  rewrite insert_app_r_alt by lia. now rewrite Nat.sub_diag.
Qed.

Lemma strip_body_idem_at doc body n :
  find (has_tag "body") [] doc = Some (body, n) ->
  let g := prune (has_tag_in [lit "script"; lit "style"]) in
  find (has_tag "body") [] (update_at g doc body) = Some (body, g n)
  /\ update_at g (update_at g doc body) body = update_at g doc body.
Proof.
  intros Ef g.
  destruct (find_update (has_tag "body") g) with (p := @nil nat) (t := doc)
    (q := body) (n := n) as (r & Er & _ & Hf); auto.
  { intros x. apply has_tag_prune. }
  simpl in Er. subst r. split; [exact Hf|].
  rewrite update_at_twice. apply update_at_ext.
  intros x. apply prune_idem. intros y. apply has_tag_in_prune.
Qed.

(** [extract_text] allocates its working copy and reads nothing else. *)
Lemma extract_text_run (reparse : node -> node) (st : store) (soup : ref)
    (doc : node) :
  st !! soup = Some doc ->
  extract_text reparse soup st
  = Some (render (prune is_comment
                    (prune (has_tag_in unwanted) (reparse doc))),
          st ++ [prune is_comment
                   (prune (has_tag_in unwanted) (reparse doc))]).
Proof.
  intros H. unfold extract_text, bind, read, alloc, modify, ret. rewrite H.
  rewrite lookup_alloc, insert_alloc, lookup_alloc, insert_alloc.
  now rewrite lookup_alloc.
Qed.

End StoreFacts.

(** C8, as stated, fails: the call removes the script from the very
    document it is given. *)
Lemma C8_is_js_rendered_changes_its_argument :
  is_js_rendered "<html><body><script>go()</script><p>Hello</p></body></html>"
                 0 [Samples.scripted_page]
  = Some (false, [Samples.scripted_page_stripped])
  /\ Samples.scripted_page_stripped <> Samples.scripted_page.
Proof. split; [vm_compute; reflexivity | discriminate]. Qed.

(** C8 (amended): [is_js_rendered] removes the [script] and [style]
    subtrees from the body of the document it is passed, in place (it
    makes no copy), and touches no other document; its verdict is
    determined by the HTML text and that document, and a further call on
    the stripped document returns the same verdict and changes nothing. *)
Theorem C8_is_js_rendered_strips_in_place
    (html : str) (st : store) (soup : ref) (doc : node) :
  st !! soup = Some doc ->
  let st' := <[soup := strip_body doc]> st in
  exists verdict,
    is_js_rendered html soup st = Some (verdict, st')
    /\ is_js_rendered html soup st' = Some (verdict, st')
    /\ forall r, r <> soup -> st' !! r = st !! r.
Proof.
  intros H st'. subst st'.
  assert (Hlt : soup < length st) by (eapply lookup_lt_Some; eauto).
  unfold strip_body.
  destruct (find (has_tag "body") [] doc) as [[body n]|] eqn:Ef.
  - destruct (strip_body_idem_at doc body n Ef) as [Ef' Eid].
    set (g := prune (has_tag_in [lit "script"; lit "style"])) in *.
    set (doc' := update_at g doc body) in *.
    eexists. split; [|split].
    + unfold is_js_rendered, bind, read, modify. rewrite H, Ef, H.
      rewrite list_lookup_insert_eq by exact Hlt.
      apply verdict_run.
    + unfold is_js_rendered, bind, read, modify.
      rewrite list_lookup_insert_eq by exact Hlt.
      rewrite Ef'. rewrite list_lookup_insert_eq by exact Hlt.
      rewrite list_insert_insert_eq.
      fold g. rewrite Eid.
      rewrite list_lookup_insert_eq by exact Hlt.
      apply verdict_run.
    + intros r Hr. now apply list_lookup_insert_ne.
  - exists false. rewrite (list_insert_id st soup doc H).
    unfold is_js_rendered, bind, read. rewrite H, Ef.
    repeat split; auto.
Qed.

(** The amended C8 on the page with a script in its body. *)
Lemma C8_is_js_rendered_strips_in_place_witness :
  exists verdict,
    is_js_rendered "<script>" 0 [Samples.scripted_page]
    = Some (verdict, <[0 := strip_body Samples.scripted_page]>
                       [Samples.scripted_page])
    /\ is_js_rendered "<script>" 0
         (<[0 := strip_body Samples.scripted_page]> [Samples.scripted_page])
       = Some (verdict, <[0 := strip_body Samples.scripted_page]>
                          [Samples.scripted_page])
    /\ forall r, r <> 0 ->
         (<[0 := strip_body Samples.scripted_page]> [Samples.scripted_page]) !! r
         = [Samples.scripted_page] !! r.
Proof.
  apply (C8_is_js_rendered_strips_in_place
           "<script>" [Samples.scripted_page] 0 Samples.scripted_page).
  reflexivity.
Defined.

(** C10: [extract_text] works on a document of its own, obtained by
    writing the given one out and parsing it again; the removal of the
    unwanted subtrees and of the comments happens there.  The document
    passed in, like every other document of the store, is the same after
    the call. *)
Theorem C10_extract_text_leaves_its_input
    (reparse : node -> node) (st : store) (soup : ref) (doc : node) :
  st !! soup = Some doc ->
  let copy := prune is_comment (prune (has_tag_in unwanted) (reparse doc)) in
  extract_text reparse soup st = Some (render copy, st ++ [copy])
  /\ (st ++ [copy]) !! soup = Some doc
  /\ forall r t, st !! r = Some t -> (st ++ [copy]) !! r = Some t.
Proof.
  intros H copy. split; [|split].
  - now apply extract_text_run.
  - now apply lookup_app_l_Some.
  - intros r t Hr. now apply lookup_app_l_Some.
Qed.

(** C10 on a store that holds one page. *)
Lemma C10_extract_text_leaves_its_input_witness :
  let copy := prune is_comment (prune (has_tag_in unwanted)
                                  Samples.scripted_page) in
  extract_text (fun t => t) 0 [Samples.scripted_page]
  = Some (render copy, [Samples.scripted_page] ++ [copy])
  /\ ([Samples.scripted_page] ++ [copy]) !! 0 = Some Samples.scripted_page
  /\ forall r t, [Samples.scripted_page] !! r = Some t ->
                 ([Samples.scripted_page] ++ [copy]) !! r = Some t.
Proof.
  apply (C10_extract_text_leaves_its_input
           (fun t => t) [Samples.scripted_page] 0 Samples.scripted_page).
  reflexivity.
Defined.

(** ** Page titles (claim C9) *)

(** C9: on a page whose [title] holds only a no-break space,
    [get_page_title] returns the empty string, although the page has a
    heading; so it does on a page with no [title] and an empty first
    [h1]. *)
Theorem C9_get_page_title_can_be_empty :
  get_page_title Samples.blank_title_page = []
  /\ get_page_title Samples.empty_heading_page = [].
Proof. split; reflexivity. Qed.

(** ** The content extractor on code blocks (claim C7) *)

Section ExtractFacts.









Section Walk.

Variables (doc root : node) (p : pos).



End Walk.




End ExtractFacts.




(** ** Facts about the crawl loop *)

Section CrawlFacts.

Variable W : world.
Variable cfg : config.

Lemma queued_In url queue :
  queued url queue = true <-> In url (map entry_url queue).
Proof.
  unfold queued. rewrite existsb_exists. split.
  - intros (x & Hx & E). apply eqb_eq in E. now subst.
  - intros H. exists url. split; [exact H | apply eqb_refl].
Qed.

Lemma queued_false url queue :
  queued url queue = false <-> ~ In url (map entry_url queue).
Proof.
  rewrite <- queued_In. destruct (queued url queue); split; congruence.
Qed.

(** What the loop over the links of a page does to the queue and to
    the link sequence. *)
Lemma enqueue_links_spec seen url depth links :
  forall queue found queue' found',
    enqueue_links seen url depth links queue found = (queue', found') ->
    exists new,
      found' = found ++ new
      /\ queue' = queue ++ map (child_entry url depth) new
      /\ (forall l, In l new -> In l links)
      /\ (forall l, In l new ->
            (canon l ∉ seen) /\ ~ In (canon l) (map entry_url queue))
      /\ NoDup (map canon new)
      /\ (forall l, In l links ->
            (canon l ∈ seen) \/ In (canon l) (map entry_url queue')).
Proof.
  induction links as [|l links IH]; intros queue found queue' found' H;
    simpl in H.
  - inversion H; subst. exists []. simpl. rewrite !app_nil_r.
    split; [reflexivity|]. split; [reflexivity|].
    split; [intros l []|]. split; [intros l []|].
    split; [apply NoDup_nil_2|]. intros l [].
  - fold (canon l) in H.
    destruct (negb (bool_decide (canon l ∈ seen))
              && negb (queued (canon l) queue)) eqn:C.
    + apply andb_true_iff in C as [C1 C2].
      apply negb_true_iff in C1, C2.
      apply bool_decide_eq_false in C1. apply queued_false in C2.
      destruct (IH _ _ _ _ H) as (new & -> & -> & Hsub & Hfresh & Hnd & Hall).
      exists (l :: new).
      split. { simpl. now rewrite <- app_assoc. }
      split. { simpl. now rewrite <- app_assoc. }
      split. { intros l' [<-|Hl']; [now left | right; auto]. }
      split.
      { intros l' [<-|Hl']; [now split|].
        destruct (Hfresh _ Hl') as [Hs Hq]. split; [exact Hs|].
        intros Hin. apply Hq. rewrite map_app. apply in_or_app. now left. }
      split.
      { constructor; [|exact Hnd]. intros Hin.
        apply list_elem_of_In in Hin.
        apply in_map_iff in Hin as (l' & E & Hl').
        destruct (Hfresh _ Hl') as [_ Hq]. apply Hq.
        rewrite map_app. apply in_or_app. right. simpl. left.
        now symmetry. }
      intros l' [<-|Hl']; [|now apply Hall].
      right. rewrite !map_app. apply in_or_app. left.
      apply in_or_app. right. now left.
    + destruct (IH _ _ _ _ H) as (new & -> & -> & Hsub & Hfresh & Hnd & Hall).
      exists new. split; [reflexivity|]. split; [reflexivity|].
      split; [intros l' Hl'; right; auto|].
      split; [exact Hfresh|]. split; [exact Hnd|].
      intros l' [<-|Hl']; [|now apply Hall].
      apply andb_false_iff in C as [C|C]; apply negb_false_iff in C.
      * left. now apply bool_decide_eq_true in C.
      * right. apply queued_In in C. rewrite map_app.
        apply in_or_app. now left.
Qed.

Abbreviation step := (iteration W cfg).
Abbreviation answer e := (result_of W cfg (entry_url e) (entry_referer e)).

(** The four ways one turn of the loop can go. *)
Lemma iteration_cases st e rest :
  to_visit st = e :: rest ->
  dequeued (step st) = dequeued st ++ [e]
  /\ ( (((entry_url e ∈ visited st) \/ accepted cfg (entry_url e) = false)
        /\ visited (step st) = visited st /\ to_visit (step st) = rest
        /\ pages (step st) = pages st
        /\ all_links (step st) = all_links st)
    \/ ((entry_url e ∉ visited st) /\ accepted cfg (entry_url e) = true
        /\ gives_page (answer e) = false
        /\ visited (step st) = {[entry_url e]} ∪ visited st
        /\ to_visit (step st) = rest
        /\ pages (step st) = pages st
        /\ all_links (step st) = all_links st)
    \/ ((entry_url e ∉ visited st) /\ accepted cfg (entry_url e) = true
        /\ gives_page (answer e) = true
        /\ depth_allows cfg (entry_depth e) = false
        /\ visited (step st) = {[entry_url e]} ∪ visited st
        /\ to_visit (step st) = rest
        /\ pages (step st) = pages st ++ [page_of W cfg e]
        /\ all_links (step st) = all_links st)
    \/ ((entry_url e ∉ visited st) /\ accepted cfg (entry_url e) = true
        /\ gives_page (answer e) = true
        /\ depth_allows cfg (entry_depth e) = true
        /\ visited (step st) = {[entry_url e]} ∪ visited st
        /\ pages (step st) = pages st ++ [page_of W cfg e]
        /\ enqueue_links ({[entry_url e]} ∪ visited st) (entry_url e)
             (entry_depth e) (s_links (answer e)) rest (all_links st)
           = (to_visit (step st), all_links (step st))) ).
Proof.
  intros Hq. unfold iteration, page_of. rewrite Hq.
  unfold accepted, gives_page.
  set (url := entry_url e).
  set (r := result_of W cfg url (entry_referer e)).
  destruct (bool_decide (url ∈ visited st)) eqn:Hv.
  { apply bool_decide_eq_true in Hv. simpl. split; [reflexivity|].
    left. repeat split; auto. }
  apply bool_decide_eq_false in Hv.
  destruct (domain_ok cfg url) eqn:Hd; simpl.
  2:{ split; [reflexivity|]. left. repeat split; auto. }
  destruct (prefix_ok cfg url) eqn:Hp; simpl.
  2:{ split; [reflexivity|]. left. repeat split; auto. }
  destruct (s_success r && nonempty (strip (s_content r))) eqn:Hg.
  2:{ simpl. split; [reflexivity|]. right. left. repeat split; auto. }
  destruct (depth_allows cfg (entry_depth e)) eqn:Hdep.
  2:{ simpl. split; [reflexivity|]. right. right. left.
      repeat split; auto. }
  destruct (enqueue_links ({[url]} ∪ visited st) url (entry_depth e)
              (s_links r) rest (all_links st)) as [queue found] eqn:E.
  simpl. split; [reflexivity|]. right. right. right. repeat split; auto.
Qed.

Lemma continues_queue st :
  continues cfg st = true ->
  exists e rest, to_visit st = e :: rest
                 /\ (Z.of_nat (length (pages st)) < max_pages cfg)%Z.
Proof.
  unfold continues. destruct (to_visit st) as [|e rest]; [discriminate|].
  intros H. apply Z.ltb_lt in H. eauto.
Qed.

(** An invariant of the body holds when the loop ends. *)
Lemma crawl_loop_invariant (P : state -> Prop) :
  (forall st, P st -> continues cfg st = true -> P (iteration W cfg st)) ->
  forall fuel st st',
    P st -> crawl_loop W cfg fuel st = Some st' ->
    P st' /\ continues cfg st' = false.
Proof.
  intros Hstep. induction fuel as [|fuel IH]; intros st st' HP H; simpl in H;
    destruct (continues cfg st) eqn:C; try discriminate;
    try (inversion H; subst; now split).
  eapply IH; [|exact H]. now apply Hstep.
Qed.

Lemma crawl_loop_more fuel :
  forall st st' extra,
    crawl_loop W cfg fuel st = Some st' ->
    crawl_loop W cfg (fuel + extra) st = Some st'.
Proof.
  induction fuel as [|fuel IH]; intros st st' extra H; simpl in H.
  - destruct (continues cfg st) eqn:C; [discriminate|].
    destruct extra; simpl; now rewrite C.
  - simpl. destruct (continues cfg st); [now apply IH | exact H].
Qed.

(** The result does not depend on the fuel. *)
Lemma crawl_loop_deterministic f1 f2 st a b :
  crawl_loop W cfg f1 st = Some a -> crawl_loop W cfg f2 st = Some b -> a = b.
Proof.
  intros H1 H2.
  apply crawl_loop_more with (extra := f2) in H1.
  apply crawl_loop_more with (extra := f1) in H2.
  rewrite Nat.add_comm in H2. congruence.
Qed.

(** The loop ends: a turn either keeps a page, and the budget left
    shrinks, or leaves the queue one entry shorter. *)
Lemma crawl_loop_terminates st :
  exists fuel st', crawl_loop W cfg fuel st = Some st'.
Proof.
  remember (Z.to_nat (max_pages cfg - Z.of_nat (length (pages st))))
    as budget eqn:Hb.
  revert st Hb. induction budget as [budget IHb] using lt_wf_ind.
  intros st Hb.
  remember (length (to_visit st)) as n eqn:Hn.
  revert st Hb Hn. induction n as [|n IHn]; intros st Hb Hn.
  - exists 0, st. simpl. unfold continues.
    destruct (to_visit st); [reflexivity | discriminate Hn].
  - destruct (continues cfg st) eqn:C.
    2:{ exists 0, st. simpl. now rewrite C. }
    destruct (continues_queue st C) as (e & rest & Hq & Hlt).
    assert (Hlen : length rest = n) by (rewrite Hq in Hn; simpl in Hn; lia).
    destruct (iteration_cases st e rest Hq) as
      [_ [(_ & _ & Hq' & Hp & _)|[(_ & _ & _ & _ & Hq' & Hp & _)
         |[(_ & _ & _ & _ & _ & _ & Hp & _)|(_ & _ & _ & _ & _ & Hp & _)]]]].
    1,2: destruct (IHn (iteration W cfg st)) as (fuel & st' & H);
      [rewrite Hp; exact Hb | rewrite Hq'; now symmetry | ];
      exists (S fuel), st'; simpl; now rewrite C.
    1,2: destruct (IHb (Z.to_nat (max_pages cfg
              - Z.of_nat (length (pages (iteration W cfg st))))))
          with (st := iteration W cfg st) as (fuel & st' & H);
      [rewrite Hp, length_app; simpl; lia | reflexivity | ];
      exists (S fuel), st'; simpl; now rewrite C.
Qed.


Lemma child_entry_urls url depth new :
  map entry_url (map (child_entry url depth) new) = map canon new.
Proof. rewrite map_map. reflexivity. Qed.

(** One description for the four cases: the head is moved to the
    dequeued entries, possibly marked visited, possibly kept as a page,
    and entries for some of its links join the queue. *)
Lemma step_shape st e rest :
  to_visit st = e :: rest ->
  exists (new : list link) (marked kept : bool),
    dequeued (step st) = dequeued st ++ [e]
    /\ to_visit (step st)
       = rest ++ map (child_entry (entry_url e) (entry_depth e)) new
    /\ all_links (step st) = all_links st ++ new
    /\ visited (step st)
       = (if marked then {[entry_url e]} ∪ visited st else visited st)
    /\ pages (step st)
       = (if kept then pages st ++ [page_of W cfg e] else pages st)
    /\ (marked = false ->
        (entry_url e ∈ visited st) \/ accepted cfg (entry_url e) = false)
    /\ (marked = true ->
        (entry_url e ∉ visited st) /\ accepted cfg (entry_url e) = true)
    /\ (kept = gives_page (answer e) && marked)
    /\ (new <> [] -> kept = true /\ depth_allows cfg (entry_depth e) = true)
    /\ (forall l, In l new ->
          In l (s_links (answer e))
          /\ (canon l ∉ ({[entry_url e]} ∪ visited st : gset str))
          /\ ~ In (canon l) (map entry_url rest))
    /\ NoDup (map canon new)
    /\ (kept = true -> depth_allows cfg (entry_depth e) = true ->
        forall l, In l (s_links (answer e)) ->
          (canon l ∈ ({[entry_url e]} ∪ visited st : gset str))
          \/ In (canon l) (map entry_url (to_visit (step st)))).
Proof.
  intros Hq.
  destruct (iteration_cases st e rest Hq) as
    [Hd [(Hs & Hv & Hq' & Hp & Hl)
        |[(Hn & Ha & Hg & Hv & Hq' & Hp & Hl)
         |[(Hn & Ha & Hg & Hdep & Hv & Hq' & Hp & Hl)
          |(Hn & Ha & Hg & Hdep & Hv & Hp & He)]]]].
  - exists [], false, false. simpl. rewrite !app_nil_r, andb_false_r.
    repeat split; auto; try discriminate; try congruence;
      try contradiction; try (intros l []); try apply NoDup_nil_2.
  - exists [], true, false. simpl. rewrite !app_nil_r, Hg.
    repeat split; auto; try discriminate; try congruence;
      try contradiction; try (intros l []); try apply NoDup_nil_2.
  - exists [], true, true. simpl. rewrite !app_nil_r, Hg.
    repeat split; auto; try discriminate; try congruence;
      try contradiction; try (intros l []); try apply NoDup_nil_2.
  - symmetry in He.
    destruct (enqueue_links_spec _ _ _ _ _ _ _ _ (eq_sym He))
      as (new & El & Eq & Hsub & Hfresh & Hnd & Hall).
    exists new, true, true. rewrite Hg.
    split; [exact Hd|]. split; [exact Eq|]. split; [exact El|].
    split; [exact Hv|]. split; [exact Hp|].
    split; [discriminate|]. split; [auto|]. split; [reflexivity|].
    split; [auto|].
    split. { intros l Hl. destruct (Hfresh l Hl). auto. }
    split; [exact Hnd|]. intros _ _ l Hl. now apply Hall.
Qed.

Lemma scraped_urls_step st st' e :
  dequeued st' = dequeued st ++ [e] ->
  scraped_urls cfg st'
  = scraped_urls cfg st
    ++ (if accepted cfg (entry_url e) then [entry_url e] else []).
Proof.
  intros H. unfold scraped_urls. rewrite H, List.filter_app, map_app.
  simpl. now destruct (accepted cfg (entry_url e)).
Qed.

Lemma frontier_inv_initial : frontier_inv cfg (initial cfg).
Proof.
  constructor; simpl.
  - intros u [].
  - apply NoDup_singleton.
  - intros e _. apply not_elem_of_empty.
  - apply NoDup_nil_2.
  - reflexivity.
  - intros p [].
  - lia.
Qed.

Lemma frontier_inv_step st :
  frontier_inv cfg st -> continues cfg st = true ->
  frontier_inv cfg (step st).
Proof.
  intros [Hvis Hnd Hfresh Hsnd Hlinks Hcont Hbud] C.
  destruct (continues_queue st C) as (e & rest & Hq & Hlt).
  destruct (step_shape st e rest Hq) as
    (new & marked & kept & Hd & Hq' & Hl' & Hv' & Hp' & Hm0 & Hm1 & Hk
     & Hnew & Hnl & Hnnd & _).
  rewrite Hq in Hnd, Hfresh. simpl in Hnd.
  apply NoDup_cons in Hnd as [Hue Hnd].
  assert (Hu : entry_url e ∉ visited st) by (apply Hfresh; now left).
  assert (Hsub : forall x, x ∈ visited st -> x ∈ visited (step st)).
  { intros x Hx. rewrite Hv'. destruct marked; [|exact Hx].
    apply elem_of_union. now right. }
  constructor.
  - intros u. rewrite (scraped_urls_step st _ e Hd).
    intros Hin. apply in_app_or in Hin as [Hin|Hin]; [now apply Hsub, Hvis|].
    destruct (accepted cfg (entry_url e)) eqn:Ha; [|destruct Hin].
    destruct Hin as [<-|[]]. rewrite Hv'. destruct marked.
    + apply elem_of_union. left. now apply elem_of_singleton.
    + destruct (Hm0 eq_refl); [contradiction | discriminate].
  - rewrite Hq', map_app, child_entry_urls. apply NoDup_app.
    split; [exact Hnd|]. split; [|exact Hnnd].
    intros x Hx Hx'. apply list_elem_of_In in Hx, Hx'.
    apply in_map_iff in Hx' as (l & <- & Hl).
    destruct (Hnl l Hl) as (_ & _ & Hnq). contradiction.
  - intros e'. rewrite Hq', Hv'. intros Hin.
    assert (Hx : entry_url e' ∉ ({[entry_url e]} ∪ visited st : gset str)).
    { apply in_app_or in Hin as [Hin|Hin].
      - intros Hx. apply elem_of_union in Hx as [Hx|Hx].
        + apply elem_of_singleton in Hx. apply Hue.
          apply list_elem_of_In. rewrite <- Hx. now apply in_map.
        + revert Hx. apply Hfresh. now right.
      - apply in_map_iff in Hin as (l & <- & Hl).
        now destruct (Hnl l Hl) as (_ & Hx & _). }
    destruct marked; [exact Hx|]. intros Hy. apply Hx.
    apply elem_of_union. now right.
  - rewrite (scraped_urls_step st _ e Hd).
    destruct (accepted cfg (entry_url e)); [|now rewrite app_nil_r].
    apply NoDup_app. split; [exact Hsnd|]. split; [|apply NoDup_singleton].
    intros x Hx Hx'. apply list_elem_of_In in Hx.
    apply list_elem_of_singleton in Hx'. subst x.
    now apply Hu, Hvis.
  - rewrite Hd, Hq', Hl', <- !app_assoc, !map_app, child_entry_urls.
    simpl. rewrite Hq, map_app in Hlinks. simpl in Hlinks.
    rewrite (app_comm_cons (map canon (all_links st))), <- Hlinks.
    now rewrite <- app_assoc.
  - intros p. rewrite Hp'. destruct kept; [|apply Hcont].
    intros Hin. apply in_app_or in Hin as [Hin|[<-|[]]]; [now apply Hcont|].
    symmetry in Hk. apply andb_true_iff in Hk as [Hg _].
    unfold gives_page in Hg. apply andb_true_iff in Hg as [_ Hg].
    exact Hg.
  - rewrite Hp'. destruct kept; [|exact Hbud].
    rewrite length_app. simpl. lia.
Qed.

Lemma frontier_inv_final fuel st :
  crawl_run W cfg fuel = Some st -> frontier_inv cfg st.
Proof.
  intros H. eapply (crawl_loop_invariant (frontier_inv cfg)); eauto.
  - apply frontier_inv_step.
  - apply frontier_inv_initial.
Qed.


(** *** One level of links *)

Lemma depth1_inv_initial : depth1_inv W cfg (initial cfg).
Proof.
  constructor; simpl.
  - intros e [<-|[]]. left. auto.
  - intros p [].
Qed.

Lemma depth1_inv_step st :
  max_depth cfg = Some 1%Z ->
  depth1_inv W cfg st -> continues cfg st = true ->
  depth1_inv W cfg (step st).
Proof.
  intros Hmd [Hqueue Hpages] C.
  destruct (continues_queue st C) as (e & rest & Hq & _).
  destruct (step_shape st e rest Hq) as
    (new & marked & kept & _ & Hq' & _ & _ & Hp' & _ & _ & _
     & Hnew & Hnl & _ & _).
  assert (He : In e (to_visit st)) by (rewrite Hq; now left).
  constructor.
  - intros e'. rewrite Hq'. intros Hin.
    apply in_app_or in Hin as [Hin|Hin].
    + apply Hqueue. rewrite Hq. now right.
    + apply in_map_iff in Hin as (l & <- & Hl).
      destruct Hnew as [_ Hdep]; [now destruct new|].
      unfold depth_allows in Hdep. rewrite Hmd in Hdep.
      apply Z.ltb_lt in Hdep.
      destruct (Hqueue e He) as [(Hd0 & Hu & Hr)|[Hd1 _]]; [|lia].
      right. simpl. split; [lia|]. exists l. split; [|reflexivity].
      destruct (Hnl l Hl) as (Hin & _). now rewrite Hu, Hr in Hin.
  - intros p. rewrite Hp'. destruct kept; [|apply Hpages].
    intros Hin. apply in_app_or in Hin as [Hin|[<-|[]]];
      [now apply Hpages|].
    simpl. destruct (Hqueue e He) as [(_ & Hu & _)|[_ Hl]].
    + now left.
    + now right.
Qed.

(** *** Breadth-first order *)










Lemma depth1_inv_final fuel st :
  max_depth cfg = Some 1%Z ->
  crawl_run W cfg fuel = Some st -> depth1_inv W cfg st.
Proof.
  intros Hmd H. eapply (crawl_loop_invariant (depth1_inv W cfg)); eauto.
  - intros st0. now apply depth1_inv_step.
  - apply depth1_inv_initial.
Qed.


Lemma crawl_of_run fuel st :
  crawl_run W cfg fuel = Some st ->
  crawl W cfg fuel = Some (pages st, all_links st).
Proof. intros H. unfold crawl. now rewrite H. Qed.


End CrawlFacts.

(** ** The page budget (claim C1) *)




(** ** No address is scraped twice (claim C2) *)

(** C2, as stated, fails: with [path_prefix = "/docs/"] the index page
    [/docs/], canonically [/docs], is dequeued and discarded by the
    prefix test, is not marked visited, and is queued and dequeued again
    when the next page links to it. *)
Lemma C2_discarded_url_is_dequeued_twice :
  option_map (fun st => map entry_url (dequeued st))
             (crawl_run (Samples.site_world Samples.docs_site)
                        Samples.docs_config 10)
  = Some [lit "https://a.com/docs/x"; lit "https://a.com/docs";
          lit "https://a.com/docs/y"; lit "https://a.com/docs"]
  /\ ~ NoDup [lit "https://a.com/docs/x"; lit "https://a.com/docs";
              lit "https://a.com/docs/y"; lit "https://a.com/docs"].
Proof.
  split; [vm_compute; reflexivity|].
  intros H. apply NoDup_cons in H as [_ H]. apply NoDup_cons in H as [H _].
  apply H. apply list_elem_of_In. right. now left.
Qed.

(** C2 (amended): over a full run, for every input graph and every
    configuration, the addresses that are dequeued and pass the host and
    prefix tests, which are the ones marked visited and scraped, are
    pairwise distinct; so no address is dequeued twice when all the
    dequeued ones pass the tests.  The queue left at the end holds no
    address twice and none that was visited. *)
Theorem C2_scraped_urls_are_distinct (W : world) (cfg : config) :
  exists fuel st,
    crawl_run W cfg fuel = Some st
    /\ NoDup (scraped_urls cfg st)
    /\ (forall u, In u (scraped_urls cfg st) <->
                  exists e, In e (dequeued st) /\ entry_url e = u
                            /\ accepted cfg u = true)
    /\ ((forall e, In e (dequeued st) -> accepted cfg (entry_url e) = true) ->
        NoDup (map entry_url (dequeued st)))
    /\ NoDup (map entry_url (to_visit st))
    /\ (forall e, In e (to_visit st) -> entry_url e ∉ visited st).
Proof.
  destruct (crawl_loop_terminates W cfg (initial cfg)) as (fuel & st & Hrun).
  exists fuel, st. split; [exact Hrun|].
  destruct (frontier_inv_final W cfg fuel st Hrun) as [_ Hq Hf Hs _ _ _].
  split; [exact Hs|]. split; [|split; [|split; [exact Hq | exact Hf]]].
  - intros u. unfold scraped_urls. rewrite in_map_iff. split.
    + intros (e & <- & He). apply filter_In in He as [He Ha]. eauto.
    + intros (e & He & <- & Ha). exists e. split; [reflexivity|].
      apply filter_In. auto.
  - intros Hall. unfold scraped_urls in Hs.
    rewrite filter_stable_list in Hs; [exact Hs|].
    apply List.Forall_forall. exact Hall.
Qed.

(** ** The link sequence (claim C3) *)



(** ** One level of links (claim C5) *)

(** C5: with [max_depth = 1], every page that the crawl returns is the
    seed page or the target of a link found on the seed page; a page two
    or more links away from the seed is not among them. *)
Theorem C5_depth_one_stays_near_seed (W : world) (cfg : config) :
  max_depth cfg = Some 1%Z ->
  exists fuel pages links,
    crawl W cfg fuel = Some (pages, links)
    /\ forall p, In p pages ->
         page_url p = seed cfg
         \/ exists l, In l (s_links (result_of W cfg (seed cfg) None))
                      /\ page_url p = normalize_url (link_url l).
Proof.
  intros Hmd.
  destruct (crawl_loop_terminates W cfg (initial cfg)) as (fuel & st & Hrun).
  exists fuel, (pages st), (all_links st).
  split; [now apply crawl_of_run|].
  apply (di_pages W cfg st (depth1_inv_final W cfg fuel st Hmd Hrun)).
Qed.

(** C5 on the two-page site. *)
Lemma C5_depth_one_stays_near_seed_witness :
  exists fuel pages links,
    crawl (Samples.site_world Samples.home_site)
          (Samples.home_config 10 (Some 1%Z)) fuel = Some (pages, links)
    /\ forall p, In p pages ->
         page_url p = seed (Samples.home_config 10 (Some 1%Z))
         \/ exists l,
              In l (s_links (result_of (Samples.site_world Samples.home_site)
                               (Samples.home_config 10 (Some 1%Z))
                               (seed (Samples.home_config 10 (Some 1%Z)))
                               None))
              /\ page_url p = normalize_url (link_url l).
Proof.
  apply (C5_depth_one_stays_near_seed
           (Samples.site_world Samples.home_site)
           (Samples.home_config 10 (Some 1%Z))).
  reflexivity.
Defined.

(** ** Pages have content (claim C6) *)

(** C6: every page record that the crawl returns has content that is not
    empty once stripped; and when the entry at the head of the queue is
    scraped and its content is blank, the turn adds no page and no link,
    leaves the rest of the queue as it is, and the loop goes on from
    there. *)
Theorem C6_pages_have_content (W : world) (cfg : config) :
  (exists fuel pages links,
     crawl W cfg fuel = Some (pages, links)
     /\ forall p, In p pages -> nonempty (strip (page_content p)) = true)
  /\ (forall st e rest fuel,
        to_visit st = e :: rest ->
        continues cfg st = true ->
        entry_url e ∉ visited st ->
        accepted cfg (entry_url e) = true ->
        nonempty
          (strip (s_content (result_of W cfg (entry_url e)
                                       (entry_referer e)))) = false ->
        iteration W cfg st
        = mkState ({[entry_url e]} ∪ visited st) rest (pages st)
                  (all_links st) (dequeued st ++ [e])
        /\ crawl_loop W cfg (S fuel) st
           = crawl_loop W cfg fuel
               (mkState ({[entry_url e]} ∪ visited st) rest (pages st)
                        (all_links st) (dequeued st ++ [e]))).
Proof.
  split.
  - destruct (crawl_loop_terminates W cfg (initial cfg))
      as (fuel & st & Hrun).
    exists fuel, (pages st), (all_links st).
    split; [now apply crawl_of_run|].
    apply (fi_content cfg st (frontier_inv_final W cfg fuel st Hrun)).
  - intros st e rest fuel Hq C Hv Ha Hblank.
    assert (E : iteration W cfg st
                = mkState ({[entry_url e]} ∪ visited st) rest (pages st)
                          (all_links st) (dequeued st ++ [e])).
    { unfold iteration. rewrite Hq.
      rewrite bool_decide_eq_false_2 by exact Hv.
      unfold accepted in Ha. apply andb_true_iff in Ha as [-> ->]. simpl.
      now rewrite Hblank, andb_false_r. }
    split; [exact E|]. simpl. now rewrite C, E.
Qed.
